(** * igor: named arguments for C++ (include/igor/igor.hpp)

    A shallow embedding of the header and the properties of its presence
    predicates and of its parser.

    The header works on C++ types: a tag is an empty struct, a binding is a
    [tagged_container<Tag, T>] holding a reference, and every predicate is a
    fold expression over a pack of argument types.  The embedding keeps the
    two levels of the header apart: [cpp_type] is what the predicates see (a
    pack [Args...]), [argument] is what the parser's constructor receives (the
    objects [parse_args...]), and [decltype] relates the two. *)

From Equations Require Import Equations.
From stdpp Require Import base list numbers strings.

Definition inspect {A : Type} (a : A) : {b : A | a = b} := exist _ a eq_refl.

(** ** std::size_t

    The counters of [has_other_than] are [std::size_t] values: unsigned, and
    added modulo [2 ^ size_t_bits]. *)

Definition size_t_bits : N := 64.

Definition size_t_modulus : N := 2 ^ size_t_bits.

(** [a + b] on [std::size_t]. *)
Definition size_t_add (a b : N) : N := ((a + b) mod size_t_modulus)%N.

(** [static_cast<std::size_t>(b)] for a [bool]. *)
Definition size_t_of_bool (b : bool) : N := if b then 1%N else 0%N.

(** ** Fold expressions

    [(... || e)] and [(... && e)] are unary left folds: [((e1 op e2) op e3)],
    with the value [false], respectively [true], for an empty pack.
    [(init + ... + e)] is a binary left fold: [(((init + e1) + e2) + e3)]. *)

Definition fold_or (es : list bool) : bool :=
  match es with
  | [] => false
  | e :: es => fold_left orb es e
  end.

Definition fold_and (es : list bool) : bool :=
  match es with
  | [] => true
  | e :: es => fold_left andb es e
  end.

Definition fold_plus (init : N) (es : list N) : N :=
  fold_left size_t_add es init.

Section igor.
(** Tags are types ([struct name_tag {}]), compared by type identity; the
    objects that bindings refer to are of arbitrary types. *)
Context {Tag : Type} `{!EqDecision Tag} {V : Type}.

(** *** Data model *)

(** The [T] of a [tagged_container<Tag, T>] is always a reference
    (the [static_assert] of the struct); the parser only asks which kind. *)
Inductive reference_kind := lvalue_reference | rvalue_reference.

(** [struct tagged_container { using tag_type = Tag; T value; }]:
    [value_kind] is the reference kind of [T], [value] the object referred
    to. *)
Record tagged_container := {
  tag_type : Tag;
  value_kind : reference_kind;
  value : V
}.

(** [named_argument<Tag>::operator=(T &&x)]: a forwarding reference, so the
    container holds [T &&], an rvalue reference exactly when [x] is an
    rvalue; the overloads for [std::initializer_list] do the same, one per
    kind of reference.  A [named_argument<Tag>] object has no state: it is
    its tag. *)
Definition named_argument_assign (narg : Tag) (k : reference_kind) (x : V)
  : tagged_container :=
  {| tag_type := narg; value_kind := k; value := x |}.

(** What a fetch returns: a const reference to the global [not_provided]
    object, or the stored reference, moved or not. *)
Inductive fetched :=
| not_provided
| moved (v : V)
| referenced (v : V).

(** An argument of a call: a tagged container or an object of any other
    type. *)
Inductive argument :=
| named (c : tagged_container)
| unnamed (v : V).

(** The types of a pack, as far as the header tells them apart. *)
Inductive cpp_type :=
| tagged_container_t (tag : Tag) (k : reference_kind)
| other_t.

Definition decltype (a : argument) : cpp_type :=
  match a with
  | named c => tagged_container_t (tag_type c) (value_kind c)
  | unnamed _ => other_t
  end.

(** [uncvref_t<T>]: the types of the model carry no cv- or reference
    qualifier, so there is nothing to remove. *)
Definition uncvref_t (A : cpp_type) : cpp_type := A.

(** *** Type traits *)

(** [is_tagged_container<Tag, T>]: [T] is a tagged container with tag [Tag]
    and any second parameter. *)
Definition is_tagged_container (tag : Tag) (A : cpp_type) : bool :=
  match A with
  | tagged_container_t tag' _ => bool_decide (tag' = tag)
  | other_t => false
  end.

(** [is_tagged_container_any<T>]: [T] is a tagged container, whatever its
    tag and its second parameter. *)
Definition is_tagged_container_any (A : cpp_type) : bool :=
  match A with
  | tagged_container_t _ _ => true
  | other_t => false
  end.

(** *** Free functions *)

(** [(... || is_tagged_container<Tag, uncvref_t<Args>>::value)] *)
Definition has (Args : list cpp_type) (narg : Tag) : bool :=
  fold_or ((λ A, is_tagged_container narg (uncvref_t A)) <$> Args).

(** [(... && ::igor::has<Args...>(nargs))] *)
Definition has_all (Args : list cpp_type) (nargs : list Tag) : bool :=
  fold_and (has Args <$> nargs).

(** [(... || ::igor::has<Args...>(nargs))] *)
Definition has_any (Args : list cpp_type) (nargs : list Tag) : bool :=
  fold_or (has Args <$> nargs).

(** [(... || !is_tagged_container_any<uncvref_t<Args>>::value)] *)
Definition has_unnamed_arguments (Args : list cpp_type) : bool :=
  fold_or ((λ A, negb (is_tagged_container_any (uncvref_t A))) <$> Args).

(** The first fold counts how many of the [nargs] are in the pack, the
    second one how many named arguments the pack has. *)
Definition has_other_than (Args : list cpp_type) (nargs : list Tag) : bool :=
  (fold_plus 0 ((λ narg, size_t_of_bool (has Args narg)) <$> nargs)
   <? fold_plus 0
        ((λ A, size_t_of_bool (is_tagged_container_any (uncvref_t A)))
           <$> Args))%N.

(** *** The parser *)

(** [build_parser_tuple]: the overload for a [tagged_container] first
    argument is the more specialised one and keeps it; the generic overload
    drops its first argument; the overload without arguments ends the
    recursion with an empty tuple. *)
Fixpoint build_parser_tuple (args : list argument) : list tagged_container :=
  match args with
  | [] => []
  | unnamed _ :: args => build_parser_tuple args
  | named arg0 :: args => [arg0] ++ build_parser_tuple args
  end.

(** [class parser<ParseArgs...>]: the class is indexed by its template
    parameters; an object has the one data member [tuple_t m_nargs]. *)
Record parser (ParseArgs : list cpp_type) := {
  m_nargs : list tagged_container
}.

(** [explicit parser(const ParseArgs &... parse_args)
      : m_nargs(build_parser_tuple(parse_args...))] *)
Definition parser_ctor (parse_args : list argument)
  : parser (decltype <$> parse_args) :=
  {| m_nargs := build_parser_tuple parse_args |}.

(** The two returns of the matching branch of [fetch_one_impl]. *)
Definition forward_value (c : tagged_container) : fetched :=
  match value_kind c with
  | rvalue_reference => moved (value c)
  | lvalue_reference => referenced (value c)
  end.

(** [fetch_one_impl<I>(narg)], instantiated from [I = 0] upwards until a tag
    matches or [I] reaches the size of the tuple.  An index beyond the size
    is never instantiated ([tuple_element_t] would not compile); the model
    gives it the sentinel. *)
Equations? fetch_one_impl (m : list tagged_container) (i : nat) (narg : Tag)
  : fetched by wf (length m - i) lt :=
  fetch_one_impl m i narg with decide (i = length m) => {
    | left _ := not_provided
    | right _ with inspect (m !! i) => {
      | exist _ None _ := not_provided
      | exist _ (Some c) Hc with decide (tag_type c = narg) => {
        | left _ := forward_value c
        | right _ := fetch_one_impl m (i + 1) narg } } }.
Proof. apply lookup_lt_Some in Hc. lia. Qed.

(** What [parser::operator()] returns: nothing, one reference, or a tuple
    of references. *)
Inductive fetch_result :=
| fetch_void
| fetch_one (r : fetched)
| fetch_tuple (rs : list fetched).

(** [parser::operator()(nargs...)] *)
Definition parser_call {ParseArgs : list cpp_type} (p : parser ParseArgs)
    (nargs : list Tag) : fetch_result :=
  match nargs with
  | [] => fetch_void
  | [narg] => fetch_one (fetch_one_impl (m_nargs _ p) 0 narg)
  | _ => fetch_tuple ((λ narg, fetch_one_impl (m_nargs _ p) 0 narg) <$> nargs)
  end.

(** The static member functions need no object: they are the free functions
    at the class's own [ParseArgs...]. *)
Definition parser_has (ParseArgs : list cpp_type) (narg : Tag) : bool :=
  has ParseArgs narg.

Definition parser_has_all (ParseArgs : list cpp_type) (nargs : list Tag)
  : bool :=
  has_all ParseArgs nargs.

Definition parser_has_any (ParseArgs : list cpp_type) (nargs : list Tag)
  : bool :=
  has_any ParseArgs nargs.

Definition parser_has_unnamed_arguments (ParseArgs : list cpp_type) : bool :=
  has_unnamed_arguments ParseArgs.

Definition parser_has_other_than (ParseArgs : list cpp_type)
    (nargs : list Tag) : bool :=
  has_other_than ParseArgs nargs.

End igor.

Arguments tagged_container : clear implicits.
Arguments fetched : clear implicits.
Arguments argument : clear implicits.
Arguments cpp_type : clear implicits.
Arguments parser : clear implicits.
Arguments m_nargs {Tag V ParseArgs} p.
Arguments fetch_result : clear implicits.

(** ** Counting, in the words of the specification *)

Section counts.
Context {Tag : Type} `{!EqDecision Tag}.

(** The bindings of an argument list. *)
Definition bindings (L : list (cpp_type Tag)) : list (cpp_type Tag) :=
  filter (λ A, is_tagged_container_any A = true) L.

(** The bindings of an argument list whose tag is among the given tags. *)
Definition bindings_tagged_among (L : list (cpp_type Tag)) (tags : list Tag)
  : list (cpp_type Tag) :=
  filter (λ A, Exists (λ T, is_tagged_container T A = true) tags) L.

(** The given tags, one entry per occurrence, that have a binding in the
    argument list. *)
Definition tags_present (L : list (cpp_type Tag)) (tags : list Tag)
  : list Tag :=
  filter (λ T, has L T = true) tags.

(** The tag of a binding. *)
Definition tag_of (A : cpp_type Tag) : option Tag :=
  match A with
  | tagged_container_t tag _ => Some tag
  | other_t => None
  end.
End counts.

(** ** The calls of the scenarios *)

Inductive object := int_ (n : Z) | string_ (s : string).

Definition x : string := "x".
Definition y : string := "y".
Definition z : string := "z".

(** No argument. *)
Definition call_0 : list (argument string object) := [].

(** [x = 1, y = "s", 42] *)
Definition call_1 : list (argument string object) :=
  [named (named_argument_assign x rvalue_reference (int_ 1));
   named (named_argument_assign y lvalue_reference (string_ "s"));
   unnamed (int_ 42)].

(** [42, y = "s", x = 1]: the same call, its arguments in reverse order. *)
Definition call_1_reversed : list (argument string object) :=
  [unnamed (int_ 42);
   named (named_argument_assign y lvalue_reference (string_ "s"));
   named (named_argument_assign x rvalue_reference (int_ 1))].

(** [x = 1, x = 2] *)
Definition call_2 : list (argument string object) :=
  [named (named_argument_assign x rvalue_reference (int_ 1));
   named (named_argument_assign x rvalue_reference (int_ 2))].

(** ** The type of the parser's tuple *)

Section tuple_type.
Context {Tag : Type}.

(** [using tuple_t = decltype(build_parser_tuple(
      ::std::declval<const ParseArgs &>()...))]: the return type of
    [build_parser_tuple], overload by overload.  The elements of the tuple
    are the [const tagged_container<Tag, T> &] of [forward_as_tuple]; they
    are named by the type of the container, which is how [fetch_one_impl]
    reads them. *)
Fixpoint tuple_t (ParseArgs : list (cpp_type Tag)) : list (cpp_type Tag) :=
  match ParseArgs with
  | [] => []
  | other_t :: ParseArgs => tuple_t ParseArgs
  | tagged_container_t tag k :: ParseArgs =>
      [tagged_container_t tag k] ++ tuple_t ParseArgs
  end.
End tuple_type.

(** ** Fold expressions, as list functions *)

Lemma fold_left_orb (es : list bool) (e : bool) :
  fold_left orb es e = e || existsb id es.
Proof.
  revert e. induction es as [|e' es IH]; intros e; simpl.
  - by rewrite orb_false_r.
  - by rewrite IH, orb_assoc.
Qed.

Lemma fold_left_andb (es : list bool) (e : bool) :
  fold_left andb es e = e && forallb id es.
Proof.
  revert e. induction es as [|e' es IH]; intros e; simpl.
  - by rewrite andb_true_r.
  - by rewrite IH, andb_assoc.
Qed.

Lemma fold_or_map {A : Type} (f : A → bool) (l : list A) :
  fold_or (f <$> l) = existsb f l.
Proof.
  destruct l as [|a l]; [done|]. simpl. rewrite fold_left_orb. f_equal.
  induction l as [|b l IH]; simpl; [done|]. by rewrite IH.
Qed.

Lemma fold_and_map {A : Type} (f : A → bool) (l : list A) :
  fold_and (f <$> l) = forallb f l.
Proof.
  destruct l as [|a l]; [done|]. simpl. rewrite fold_left_andb. f_equal.
  induction l as [|b l IH]; simpl; [done|]. by rewrite IH.
Qed.

Lemma existsb_elem_of {A : Type} (f : A → bool) (l : list A) :
  existsb f l = true ↔ ∃ a, a ∈ l ∧ f a = true.
Proof.
  rewrite existsb_exists. by setoid_rewrite list_elem_of_In.
Qed.

Lemma size_t_modulus_pos : (0 < size_t_modulus)%N.
Proof. done. Qed.

(** A [std::size_t] sum of casts of booleans is the number of [true]s, modulo
    [size_t_modulus]. *)
Lemma fold_plus_count {A : Type} (f : A → bool) (l : list A) (init : N) :
  (init < size_t_modulus)%N →
  fold_plus init ((λ a, size_t_of_bool (f a)) <$> l)
  = ((init + N.of_nat (length (filter (λ a, f a = true) l)))
       mod size_t_modulus)%N.
Proof.
  revert init. induction l as [|a l IH]; intros init Hinit.
  - cbn. rewrite N.add_0_r. symmetry. by apply N.mod_small.
  - rewrite fmap_cons. unfold fold_plus in *. cbn [fold_left].
    rewrite IH by (apply N.mod_upper_bound; done).
    unfold size_t_add. rewrite N.Div0.add_mod_idemp_l. f_equal.
    rewrite filter_cons. destruct (decide (f a = true)) as [->|Hfa].
    + simpl. lia.
    + apply not_true_is_false in Hfa. rewrite Hfa. simpl. lia.
Qed.

(** Below the modulus the sum does not wrap. *)
Lemma fold_plus_0_count {A : Type} (f : A → bool) (l : list A) :
  (N.of_nat (length l) < size_t_modulus)%N →
  fold_plus 0 ((λ a, size_t_of_bool (f a)) <$> l)
  = N.of_nat (length (filter (λ a, f a = true) l)).
Proof.
  intros Hlen. rewrite fold_plus_count by done.
  rewrite N.add_0_l. apply N.mod_small.
  pose proof (length_filter (λ a, f a = true) l). lia.
Qed.

(** ** The presence predicates *)

Section predicates.
Context {Tag : Type} `{!EqDecision Tag}.
Implicit Types (Args L : list (cpp_type Tag)) (T : Tag) (nargs : list Tag).

Lemma is_tagged_container_true T (A : cpp_type Tag) :
  is_tagged_container T A = true ↔ ∃ k, A = tagged_container_t T k.
Proof.
  destruct A as [tag k|]; simpl.
  - rewrite bool_decide_eq_true. split; [intros ->; eauto|].
    by intros [k' [= -> _]].
  - split; [done|]. by intros [k' ?].
Qed.

Lemma is_tagged_container_any_true (A : cpp_type Tag) :
  is_tagged_container_any A = true ↔ ∃ tag k, A = tagged_container_t tag k.
Proof.
  destruct A as [tag k|]; simpl; split; try done; eauto.
  by intros (tag & k & ?).
Qed.

Lemma has_true Args T :
  has Args T = true ↔ ∃ k, tagged_container_t T k ∈ Args.
Proof.
  unfold has, uncvref_t. rewrite fold_or_map, existsb_elem_of. split.
  - intros (A & HA & [k ->]%is_tagged_container_true). eauto.
  - intros [k Hk]. exists (tagged_container_t T k). split; [done|].
    apply is_tagged_container_true. eauto.
Qed.

Lemma has_tag_of Args T : has Args T = true ↔ Some T ∈ tag_of <$> Args.
Proof.
  rewrite has_true, list_elem_of_fmap. split.
  - intros [k Hk]. by exists (tagged_container_t T k).
  - intros ([tag k|] & [= ->] & HA). eauto.
Qed.

(** C3: [has<Args...>(T)] holds exactly when some element of the pack is a
    tagged container for [T], and permuting the pack does not change it. *)
Theorem has_iff_binding_perm Args Args' T :
  Args ≡ₚ Args' →
  (has Args T = true ↔ ∃ k, tagged_container_t T k ∈ Args)
  ∧ has Args' T = has Args T.
Proof.
  intros Hperm. split; [apply has_true|].
  apply eq_true_iff_eq. rewrite !has_true.
  by setoid_rewrite Hperm.
Qed.

(** C4: [has_all] is the conjunction and [has_any] the disjunction of [has]
    over the given tags, for two tags and for any number of them. *)
Theorem has_all_has_any_fold Args :
  (∀ A B : Tag,
      has_all Args [A; B] = has Args A && has Args B
      ∧ has_any Args [A; B] = has Args A || has Args B)
  ∧ (∀ nargs,
      has_all Args nargs = forallb (has Args) nargs
      ∧ has_any Args nargs = existsb (has Args) nargs).
Proof.
  split; [done|]. intros nargs. unfold has_all, has_any.
  by rewrite fold_and_map, fold_or_map.
Qed.

(** C5: [has_unnamed_arguments<Args...>()] holds exactly when some element
    of the pack is not a tagged container. *)
Theorem has_unnamed_arguments_iff Args :
  has_unnamed_arguments Args = true
  ↔ ∃ A, A ∈ Args ∧ ¬ ∃ tag k, A = tagged_container_t tag k.
Proof.
  unfold has_unnamed_arguments, uncvref_t.
  rewrite fold_or_map, existsb_elem_of.
  split; intros (A & HA & HnA); exists A; (split; [done|]).
  - rewrite <- is_tagged_container_any_true.
    by destruct (is_tagged_container_any A).
  - rewrite <- is_tagged_container_any_true in HnA.
    by destruct (is_tagged_container_any A).
Qed.

(** What the two counters of [has_other_than] hold when they do not wrap. *)
Lemma has_other_than_counts Args nargs :
  (N.of_nat (length Args) < size_t_modulus)%N →
  (N.of_nat (length nargs) < size_t_modulus)%N →
  has_other_than Args nargs
  = bool_decide (length (tags_present Args nargs) < length (bindings Args)).
Proof.
  intros HArgs Hnargs. unfold has_other_than, uncvref_t.
  rewrite (fold_plus_0_count (has Args)) by done.
  rewrite (fold_plus_0_count is_tagged_container_any) by done.
  fold (tags_present Args nargs). fold (bindings Args).
  apply eq_true_iff_eq. rewrite N.ltb_lt, bool_decide_eq_true. lia.
Qed.

(** C9: without tags, [has_other_than<Args...>()] holds exactly when the
    pack has a tagged container (packs below the range of [std::size_t]). *)
Theorem has_other_than_no_tags Args :
  (N.of_nat (length Args) < size_t_modulus)%N →
  has_other_than Args [] = true ↔ ∃ tag k, tagged_container_t tag k ∈ Args.
Proof.
  intros HArgs. rewrite has_other_than_counts by done.
  rewrite bool_decide_eq_true. unfold tags_present, bindings. simpl.
  split.
  - intros Hlen.
    destruct (filter (λ A, is_tagged_container_any A = true) Args)
      as [|A l] eqn:Hf; [simpl in Hlen; lia|].
    assert (A ∈ filter (λ A, is_tagged_container_any A = true) Args)
      as [(tag & k & ->)%is_tagged_container_any_true HA]%list_elem_of_filter
      by (rewrite Hf; left).
    eauto.
  - intros (tag & k & HA).
    assert (tagged_container_t tag k
              ∈ filter (λ A, is_tagged_container_any A = true) Args) as Hin
      by (by apply list_elem_of_filter).
    destruct (filter _ Args); [by apply elem_of_nil in Hin|simpl; lia].
Qed.
(** Where no tag repeats, neither among the tagged containers of the pack
    nor among [nargs], the entries of [nargs] present in the pack are as
    many as the tagged containers of the pack with a tag among [nargs]. *)
Lemma NoDup_omap_filter {A B : Type} (f : A → option B) (P : A → Prop)
    `{!∀ a, Decision (P a)} (l : list A) :
  NoDup (omap f l) → NoDup (omap f (filter P l)).
Proof.
  induction l as [|a l IH]; [done|]. rewrite filter_cons.
  destruct (decide (P a)); simpl; destruct (f a) as [b|] eqn:Hfa; auto.
  - rewrite !NoDup_cons. intros [Hb Hl]. split; [|auto].
    rewrite list_elem_of_omap in Hb |- *.
    intros (a' & [_ Ha']%list_elem_of_filter & Hfa'). eauto.
  - rewrite NoDup_cons. intros [_ Hl]. auto.
Qed.

Lemma length_omap_tag_of_bindings L (P : cpp_type Tag → Prop)
    `{!∀ A, Decision (P A)} :
  (∀ A, P A → is_tagged_container_any A = true) →
  length (omap tag_of (filter P L)) = length (filter P L).
Proof.
  intros HP. induction L as [|A L IH]; [done|]. rewrite filter_cons.
  destruct (decide (P A)) as [HA|]; [|done].
  apply HP in HA. destruct A as [tag k|]; [|done].
  change (S (length (omap tag_of (filter P L))) = S (length (filter P L))).
  by rewrite IH.
Qed.

Lemma tags_present_bindings_tagged_among Args nargs :
  NoDup nargs →
  NoDup (omap tag_of Args) →
  length (tags_present Args nargs)
  = length (bindings_tagged_among Args nargs).
Proof.
  intros Hnargs HArgs. unfold bindings_tagged_among.
  rewrite <- length_omap_tag_of_bindings; last first.
  { intros A (T & _ & [k ->]%is_tagged_container_true)%Exists_exists.
    done. }
  apply Permutation_length, NoDup_Permutation.
  - by apply NoDup_filter.
  - by apply NoDup_omap_filter.
  - intros T. unfold tags_present.
    rewrite list_elem_of_filter, list_elem_of_omap, has_true. split.
    + intros [[k Hk] HT]. exists (tagged_container_t T k).
      split; [|done]. apply list_elem_of_filter. split; [|done].
      apply Exists_exists. exists T. split; [done|].
      apply is_tagged_container_true. eauto.
    + intros (A & [HA HAin]%list_elem_of_filter & Htag).
      destruct A as [tag k|]; simplify_eq/=.
      apply Exists_exists in HA as (T' & HT' & <-%bool_decide_eq_true).
      eauto.
Qed.

(** The two counts that [has_other_than<Args...>(nargs...)] compares: the
    tagged containers of the pack against the entries of [nargs] with a
    tagged container in the pack.  Where no tag repeats, neither among the
    tagged containers of the pack nor among [nargs], the second count is
    the number of tagged containers with a tag among [nargs], and the
    function tells whether the pack has a named argument other than
    [nargs].  (Packs are below the range of [std::size_t], as [sizeof...]
    requires.) *)
Lemma has_other_than_iff_fewer_tags_present Args nargs :
  (N.of_nat (length Args) < size_t_modulus)%N →
  (N.of_nat (length nargs) < size_t_modulus)%N →
  (has_other_than Args nargs = true
   ↔ length (tags_present Args nargs) < length (bindings Args))
  ∧ (NoDup nargs →
     NoDup (omap tag_of Args) →
     has_other_than Args nargs = true
     ↔ length (bindings_tagged_among Args nargs) < length (bindings Args)).
Proof.
  intros HArgs Hnargs.
  rewrite has_other_than_counts, bool_decide_eq_true by done.
  split; [done|]. intros Hnd1 Hnd2.
  by rewrite tags_present_bindings_tagged_among.
Qed.
End predicates.

(** ** The parser *)

Section parser_properties.
Context {Tag : Type} `{!EqDecision Tag} {V : Type}.
Implicit Types (m : list (tagged_container Tag V)) (T narg : Tag).
Implicit Types (c : tagged_container Tag V) (args : list (argument Tag V)).

(** The three branches of the [if constexpr] chain. *)
Lemma fetch_one_impl_if_constexpr m i narg :
  fetch_one_impl m i narg
  = if decide (i = length m) then not_provided
    else match m !! i with
         | None => not_provided
         | Some c =>
             if decide (tag_type c = narg) then forward_value c
             else fetch_one_impl m (i + 1) narg
         end.
Proof.
  funelim (fetch_one_impl m i narg).
  - by rewrite Heq.
  - by rewrite Heq, e.
  - by rewrite Heq0, Hc, Heq.
  - by rewrite Heq0, Hc, Heq.
Qed.

(** The scan stops at the first container with the tag at or after the
    index it starts from. *)
Lemma fetch_one_impl_first m narg c (j i : nat) :
  i ≤ j →
  m !! j = Some c →
  tag_type c = narg →
  (∀ k c', i ≤ k → k < j → m !! k = Some c' → tag_type c' ≠ narg) →
  fetch_one_impl m i narg = forward_value c.
Proof.
  intros Hij Hj Hc. remember (j - i) as d eqn:Hd.
  revert i Hij Hd. induction d as [|d IH]; intros i Hij Hd Hbefore.
  - assert (i = j) as -> by lia.
    rewrite fetch_one_impl_if_constexpr, Hj.
    apply lookup_lt_Some in Hj as Hlt.
    rewrite decide_False by lia. by rewrite decide_True.
  - assert (i < j) as Hlt by lia.
    apply lookup_lt_Some in Hj as Hjlen.
    destruct (lookup_lt_is_Some_2 m i) as [c' Hc']; [lia|].
    rewrite fetch_one_impl_if_constexpr, Hc'.
    rewrite decide_False by lia.
    rewrite decide_False by (by apply (Hbefore i)).
    apply IH; [lia|lia|].
    intros k c'' Hk1 Hk2. apply Hbefore; lia.
Qed.

(** Without a container with the tag the scan reaches the end. *)
Lemma fetch_one_impl_absent m narg (i : nat) :
  (∀ c, c ∈ m → tag_type c ≠ narg) →
  fetch_one_impl m i narg = not_provided.
Proof.
  intros Hnone. remember (length m - i) as d eqn:Hd.
  revert i Hd. induction d as [|d IH]; intros i Hd;
    rewrite fetch_one_impl_if_constexpr;
    destruct (decide (i = length m)) as [|Hi]; try done;
    destruct (m !! i) as [c|] eqn:Hc; try done.
  - apply lookup_lt_Some in Hc. lia.
  - rewrite decide_False by (by eapply Hnone, list_elem_of_lookup_2).
    apply lookup_lt_Some in Hc. apply IH. lia.
Qed.

(** A tuple with a container for a tag has a first one. *)
Lemma first_tagged_container m T :
  (∃ c, c ∈ m ∧ tag_type c = T) →
  ∃ j c, m !! j = Some c ∧ tag_type c = T
         ∧ ∀ k c', k < j → m !! k = Some c' → tag_type c' ≠ T.
Proof.
  intros (c & Hc & HT).
  destruct (list_find_elem_of (λ c, tag_type c = T) m c Hc HT)
    as [[j c'] Hfind].
  apply list_find_Some in Hfind as (Hj & HT' & Hbefore).
  exists j, c'. repeat split; [done..|].
  intros k c'' Hk Hc''. by apply (Hbefore k).
Qed.

Lemma build_parser_tuple_filter args :
  named <$> build_parser_tuple args
  = filter (λ a, is_tagged_container_any (decltype a) = true) args.
Proof.
  induction args as [|[c|v] args IH]; [done|..]; rewrite filter_cons.
  - cbn [build_parser_tuple app]. rewrite fmap_cons, IH.
    by rewrite decide_True.
  - cbn [build_parser_tuple]. rewrite IH. by rewrite decide_False.
Qed.

Lemma elem_of_build_parser_tuple args c :
  c ∈ build_parser_tuple args ↔ named c ∈ args.
Proof.
  induction args as [|[c'|v] args IH]; simpl.
  - by rewrite !elem_of_nil.
  - rewrite !elem_of_cons, IH. split; intros [?|?]; simplify_eq; eauto.
  - rewrite elem_of_cons, IH. split; [eauto|]. by intros [?|?].
Qed.

Lemma has_decltype args T :
  has (decltype <$> args) T = true
  ↔ ∃ c, c ∈ build_parser_tuple args ∧ tag_type c = T.
Proof.
  rewrite has_true. setoid_rewrite elem_of_build_parser_tuple.
  setoid_rewrite list_elem_of_fmap. split.
  - intros (k & [c|v] & Heq & Ha); simplify_eq/=. eauto.
  - intros (c & Hc & <-). exists (value_kind c), (named c). eauto.
Qed.

(** The scan from index 0, by cases on the tuple. *)
Lemma fetch_one_impl_0 m T :
  ((∃ c, c ∈ m ∧ tag_type c = T) →
   ∃ j c, m !! j = Some c ∧ tag_type c = T
          ∧ (∀ k c', k < j → m !! k = Some c' → tag_type c' ≠ T)
          ∧ fetch_one_impl m 0 T = forward_value c)
  ∧ ((¬ ∃ c, c ∈ m ∧ tag_type c = T) →
     fetch_one_impl m 0 T = not_provided).
Proof.
  split.
  - intros (j & c & Hj & HT & Hbefore)%first_tagged_container.
    exists j, c. repeat split; [done..|].
    apply (fetch_one_impl_first _ _ c j); [lia|done..|].
    intros k c' _. apply Hbefore.
  - intros Hnone. apply fetch_one_impl_absent.
    intros c Hc HT. apply Hnone. eauto.
Qed.

(** C1: fetching one tag returns the value of the first tagged container
    for the tag, in the order of construction, when the parser holds one
    (the value itself: moved when it was bound as an rvalue, referenced
    otherwise), and the [not_provided] sentinel otherwise. *)
Theorem fetch_first_match_or_not_provided
    (ParseArgs : list (cpp_type Tag)) (p : parser Tag V ParseArgs) T :
  ((∃ c, c ∈ m_nargs p ∧ tag_type c = T) →
   ∃ j c, m_nargs p !! j = Some c ∧ tag_type c = T
          ∧ (∀ k c', k < j → m_nargs p !! k = Some c' → tag_type c' ≠ T)
          ∧ parser_call p [T]
            = fetch_one match value_kind c with
                        | rvalue_reference => moved (value c)
                        | lvalue_reference => referenced (value c)
                        end)
  ∧ ((¬ ∃ c, c ∈ m_nargs p ∧ tag_type c = T) →
     parser_call p [T] = fetch_one not_provided).
Proof.
  destruct (fetch_one_impl_0 (m_nargs p) T) as [Hsome Hnone]. split.
  - intros (j & c & Hj & HT & Hbefore & Hfetch)%Hsome.
    exists j, c. repeat split; [done..|]. simpl. rewrite Hfetch.
    unfold forward_value. by destruct (value_kind c).
  - intros Hfetch%Hnone. simpl. by rewrite Hfetch.
Qed.

(** C6: the constructor stores exactly the arguments that are tagged
    containers, in their order, and drops every other argument. *)
Theorem parser_ctor_stores_bindings args :
  named <$> m_nargs (parser_ctor args)
  = filter (λ a, is_tagged_container_any (decltype a) = true) args.
Proof. apply build_parser_tuple_filter. Qed.

(** C7: a fetch without tags returns nothing; a fetch with two or more
    tags returns a tuple whose i-th component is what the fetch of the
    i-th tag alone returns. *)
Theorem fetch_zero_and_many
    (ParseArgs : list (cpp_type Tag)) (p : parser Tag V ParseArgs) :
  parser_call p [] = fetch_void
  ∧ ∀ nargs : list Tag,
      2 ≤ length nargs →
      ∃ rs, parser_call p nargs = fetch_tuple rs
            ∧ length rs = length nargs
            ∧ ∀ i T, nargs !! i = Some T →
                     ∃ r, parser_call p [T] = fetch_one r
                          ∧ rs !! i = Some r.
Proof.
  split; [done|]. intros nargs Hlen.
  exists ((λ narg, fetch_one_impl (m_nargs p) 0 narg) <$> nargs).
  split; [|split].
  - destruct nargs as [|T1 [|T2 nargs]]; simpl in Hlen; [lia..|done].
  - by rewrite length_fmap.
  - intros i T Hi. exists (fetch_one_impl (m_nargs p) 0 T).
    split; [done|]. by rewrite list_lookup_fmap, Hi.
Qed.

(** C8: each static query of [parser<ParseArgs...>] returns what the free
    function returns on the types of the constructor's arguments. *)
Theorem parser_static_queries args (nargs : list Tag) T :
  let ParseArgs := decltype <$> args in
  parser_has ParseArgs T = has (decltype <$> args) T
  ∧ parser_has_all ParseArgs nargs = has_all (decltype <$> args) nargs
  ∧ parser_has_any ParseArgs nargs = has_any (decltype <$> args) nargs
  ∧ parser_has_unnamed_arguments ParseArgs
    = has_unnamed_arguments (decltype <$> args)
  ∧ parser_has_other_than ParseArgs nargs
    = has_other_than (decltype <$> args) nargs.
Proof. by repeat split. Qed.

(** C10: for a parser built from [args], a tag that [has] does not find is
    fetched as the [not_provided] sentinel, and a tag that [has] finds is
    fetched as the value of a tagged container for it that the parser holds
    (the value itself: moved when it was bound as an rvalue, referenced
    otherwise). *)
Theorem fetch_agrees_with_has args T :
  (has (decltype <$> args) T = false →
   parser_call (parser_ctor args) [T] = fetch_one not_provided)
  ∧ (has (decltype <$> args) T = true →
     ∃ c, c ∈ m_nargs (parser_ctor args) ∧ tag_type c = T
          ∧ parser_call (parser_ctor args) [T]
            = fetch_one match value_kind c with
                        | rvalue_reference => moved (value c)
                        | lvalue_reference => referenced (value c)
                        end).
Proof.
  destruct (fetch_one_impl_0 (build_parser_tuple args) T) as [Hsome Hnone].
  split.
  - intros Hhas. simpl. f_equal. apply Hnone.
    intros Hc%has_decltype. congruence.
  - intros Hc%has_decltype.
    destruct (Hsome Hc) as (j & c & Hj & HT & _ & Hfetch).
    exists c. split; [by eapply list_elem_of_lookup_2|].
    split; [done|]. simpl. rewrite Hfetch.
    unfold forward_value. by destruct (value_kind c).
Qed.
End parser_properties.

(** ** The scenarios *)

(** [x = 1, y = "s", 42]: an unnamed argument is seen; [x] and [y] are
    fetched, [z] is not provided; [y] is other than [x], nothing is other
    than [x] and [y]. *)
Example scenario_call_1 :
  has_unnamed_arguments (decltype <$> call_1) = true
  ∧ parser_call (parser_ctor call_1) [x] = fetch_one (moved (int_ 1))
  ∧ parser_call (parser_ctor call_1) [y] = fetch_one (referenced (string_ "s"))
  ∧ parser_call (parser_ctor call_1) [z] = fetch_one not_provided
  ∧ parser_has_other_than (decltype <$> call_1) [x] = true
  ∧ parser_has_other_than (decltype <$> call_1) [x; y] = false.
Proof. by vm_compute. Qed.

(** [x = 1, x = 2]: the first binding wins. *)
Example scenario_call_2 :
  parser_call (parser_ctor call_2) [x] = fetch_one (moved (int_ 1)).
Proof. by vm_compute. Qed.

(** No argument at all: every predicate is false, every fetch is
    [not_provided]. *)
Example scenario_call_0 :
  has (decltype <$> call_0) x = false
  ∧ has_any (decltype <$> call_0) [x; y] = false
  ∧ has_all (decltype <$> call_0) [x; y] = false
  ∧ has_unnamed_arguments (decltype <$> call_0) = false
  ∧ has_other_than (decltype <$> call_0) [x] = false
  ∧ parser_call (parser_ctor call_0) [x] = fetch_one not_provided
  ∧ parser_call (parser_ctor call_0) [x; y]
    = fetch_tuple [not_provided; not_provided].
Proof. by vm_compute. Qed.

(** ** The theorems at the scenarios *)

Lemma fetch_first_match_or_not_provided_witness :
  parser_call (parser_ctor call_2) [x] = fetch_one (moved (int_ 1))
  ∧ parser_call (parser_ctor call_2) [z] = fetch_one not_provided.
Proof.
  split.
  - destruct (fetch_first_match_or_not_provided _ (parser_ctor call_2) x)
      as [Hsome _].
    destruct Hsome as (j & c & Hj & HT & Hbefore & ->).
    { eexists. split; [left|reflexivity]. }
    destruct j as [|[|j]]; simpl in Hj; simplify_eq.
    + reflexivity.
    + exfalso. eapply (Hbefore 0); [lia|reflexivity|reflexivity].
  - destruct (fetch_first_match_or_not_provided _ (parser_ctor call_2) z)
      as [_ Hnone].
    apply Hnone. intros (c & Hc & HT). simpl in Hc.
    repeat (apply elem_of_cons in Hc as [->|Hc]; [discriminate HT|]).
    by apply elem_of_nil in Hc.
Defined.

Lemma has_other_than_iff_fewer_tags_present_witness :
  (N.of_nat (length (decltype <$> call_1)) < size_t_modulus)%N
  ∧ (N.of_nat (length [x]) < size_t_modulus)%N
  ∧ (has_other_than (decltype <$> call_1) [x] = true
     ↔ length (tags_present (decltype <$> call_1) [x])
       < length (bindings (decltype <$> call_1)))
  ∧ (has_other_than (decltype <$> call_1) [x] = true
     ↔ length (bindings_tagged_among (decltype <$> call_1) [x])
       < length (bindings (decltype <$> call_1))).
Proof.
  split; [reflexivity|]. split; [reflexivity|].
  destruct (has_other_than_iff_fewer_tags_present (decltype <$> call_1) [x])
    as [Hcode Hdistinct]; [reflexivity..|].
  split; [exact Hcode|]. apply Hdistinct.
  - apply NoDup_singleton.
  - vm_compute. apply NoDup_cons. split; [|apply NoDup_singleton].
    intros [=]%list_elem_of_singleton.
Defined.

(** C2: at [x = 1, x = 2] with the tag [x], [has_other_than] holds although
    the two bindings of the call are both tagged [x]: no named argument is
    other than [x], and the bindings of the call are not more than its
    bindings tagged [x]. *)
Lemma has_other_than_repeated_tag_counterexample :
  has_other_than (decltype <$> call_2) [x] = true
  ∧ length (bindings (decltype <$> call_2)) = 2
  ∧ length (bindings_tagged_among (decltype <$> call_2) [x]) = 2
  ∧ Forall (λ A, is_tagged_container x A = true)
       (bindings (decltype <$> call_2))
  ∧ ¬ (length (bindings_tagged_among (decltype <$> call_2) [x])
       < length (bindings (decltype <$> call_2))).
Proof.
  split; [vm_compute; reflexivity|]. split; [vm_compute; reflexivity|].
  split; [vm_compute; reflexivity|]. split; [|vm_compute; lia].
  change (bindings (decltype <$> call_2)) with (decltype <$> call_2).
  repeat constructor.
Qed.

(** The other way round, at [x = 1, y = "s", 42] with the tags [x, x]:
    [has_other_than] does not hold, while [y] is not among the tags. *)
Example has_other_than_repeated_query_tag :
  has_other_than (decltype <$> call_1) [x; x] = false
  ∧ length (bindings_tagged_among (decltype <$> call_1) [x; x])
    < length (bindings (decltype <$> call_1)).
Proof. split; [vm_compute; reflexivity|vm_compute; lia]. Qed.

Lemma has_iff_binding_perm_witness :
  decltype <$> call_1 ≡ₚ decltype <$> call_1_reversed
  ∧ (has (decltype <$> call_1) x = true
     ↔ ∃ k, tagged_container_t x k ∈ decltype <$> call_1)
  ∧ has (decltype <$> call_1_reversed) x = has (decltype <$> call_1) x.
Proof.
  assert (decltype <$> call_1 ≡ₚ decltype <$> call_1_reversed) as Hperm.
  { change (decltype <$> call_1_reversed)
      with (reverse (decltype <$> call_1)).
    symmetry. apply reverse_Permutation. }
  split; [exact Hperm|].
  exact (has_iff_binding_perm (decltype <$> call_1)
           (decltype <$> call_1_reversed) x Hperm).
Defined.

Lemma fetch_zero_and_many_witness :
  parser_call (parser_ctor call_1) [] = fetch_void
  ∧ ∃ rs, parser_call (parser_ctor call_1) [z; y] = fetch_tuple rs
          ∧ rs !! 1 = Some (referenced (string_ "s")).
Proof.
  destruct (fetch_zero_and_many _ (parser_ctor call_1)) as [Hvoid Hmany].
  split; [exact Hvoid|].
  destruct (Hmany [z; y]) as (rs & Hcall & Hlen & Hcomp); [simpl; lia|].
  exists rs. split; [exact Hcall|].
  destruct (Hcomp 1 y) as (r & Hr & Hrs); [reflexivity|].
  rewrite Hrs. f_equal. vm_compute in Hr. by injection Hr as <-.
Defined.

Lemma has_other_than_no_tags_witness :
  (N.of_nat (length (decltype <$> call_1)) < size_t_modulus)%N
  ∧ (has_other_than (decltype <$> call_1) [] = true
     ↔ ∃ tag k, tagged_container_t tag k ∈ decltype <$> call_1).
Proof.
  split; [reflexivity|].
  apply (has_other_than_no_tags (decltype <$> call_1)). reflexivity.
Defined.

Lemma fetch_agrees_with_has_witness :
  parser_call (parser_ctor call_1) [z] = fetch_one not_provided
  ∧ parser_call (parser_ctor call_1) [y] = fetch_one (referenced (string_ "s")).
Proof.
  split.
  - apply (fetch_agrees_with_has call_1 z). reflexivity.
  - destruct (fetch_agrees_with_has call_1 y) as [_ Hsome].
    destruct Hsome as (c & Hc & HT & ->); [reflexivity|].
    simpl in Hc.
    apply elem_of_cons in Hc as [->|Hc]; [discriminate HT|].
    apply elem_of_cons in Hc as [->|Hc]; [reflexivity|].
    by apply elem_of_nil in Hc.
Defined.

(** ** Further properties of the parser: concatenation, order, round trip *)

Section parser_composition.
Context {Tag : Type} `{!EqDecision Tag} {V : Type}.
Implicit Types (m : list (tagged_container Tag V)) (T narg : Tag).
Implicit Types (c : tagged_container Tag V) (args : list (argument Tag V)).

Lemma build_parser_tuple_app args args' :
  build_parser_tuple (args ++ args')
  = build_parser_tuple args ++ build_parser_tuple args'.
Proof.
  induction args as [|[c|v] args IH]; simpl; [done| |done]. by rewrite IH.
Qed.

(** At the head of the tuple the scan takes one step. *)
Lemma fetch_one_impl_0_cons c m T :
  fetch_one_impl (c :: m) 0 T
  = if decide (tag_type c = T) then forward_value c
    else fetch_one_impl m 0 T.
Proof.
  destruct (decide (tag_type c = T)) as [HT|HT].
  - apply (fetch_one_impl_first _ _ c 0); [lia|done..|]. intros; lia.
  - destruct (fetch_one_impl_0 m T) as [Hsome Hnone].
    destruct (decide (Exists (λ c', tag_type c' = T) m)) as [Hex|Hex].
    + apply Exists_exists in Hex.
      destruct (Hsome Hex) as (j & c' & Hj & HT' & Hbefore & ->).
      apply (fetch_one_impl_first _ _ c' (S j)); [lia|done..|].
      intros [|k] c'' _ Hk; simpl; [by intros [= <-]|].
      apply Hbefore. lia.
    + rewrite Exists_exists in Hex. rewrite (Hnone Hex).
      apply fetch_one_impl_absent. intros c' [->|Hc']%elem_of_cons; [done|].
      intros HT'. apply Hex. eauto.
Qed.

(** Over two tuples in a row, the first one with the tag answers. *)
Lemma fetch_one_impl_0_app m m' T :
  fetch_one_impl (m ++ m') 0 T
  = if decide (Exists (λ c, tag_type c = T) m) then fetch_one_impl m 0 T
    else fetch_one_impl m' 0 T.
Proof.
  induction m as [|c m IH].
  - rewrite decide_False by (by intros ?%Exists_nil). done.
  - rewrite <- app_comm_cons, !fetch_one_impl_0_cons.
    destruct (decide (tag_type c = T)) as [HT|HT].
    + rewrite decide_True by (by left). done.
    + rewrite IH. destruct (decide (Exists _ m)) as [Hex|Hex].
      * rewrite decide_True by (by right). done.
      * rewrite decide_False; [done|]. by intros [?|?]%Exists_cons.
Qed.

Lemma has_decltype_Exists args T :
  has (decltype <$> args) T = true
  ↔ Exists (λ c, tag_type c = T) (build_parser_tuple args).
Proof. by rewrite has_decltype, Exists_exists. Qed.

Lemma parser_call_ext {ParseArgs ParseArgs' : list (cpp_type Tag)}
    (p : parser Tag V ParseArgs) (p' : parser Tag V ParseArgs')
    (nargs : list Tag) :
  (∀ T, T ∈ nargs →
        fetch_one_impl (m_nargs p) 0 T = fetch_one_impl (m_nargs p') 0 T) →
  parser_call p nargs = parser_call p' nargs.
Proof.
  intros Hext. destruct nargs as [|T1 [|T2 nargs]]; [done|..].
  - simpl. f_equal. apply Hext. left.
  - unfold parser_call. f_equal. apply list_eq. intros i.
    rewrite !list_lookup_fmap.
    destruct ((T1 :: T2 :: nargs) !! i) as [T|] eqn:Hi; [|done].
    simpl. f_equal. by eapply Hext, list_elem_of_lookup_2.
Qed.
(** X1: over a call made of two argument lists in a row, a fetch is answered
    by the first list when it binds the tag, and by the second list
    otherwise. *)
Theorem parser_call_app args args' T :
  parser_call (parser_ctor (args ++ args')) [T]
  = if has (decltype <$> args) T then parser_call (parser_ctor args) [T]
    else parser_call (parser_ctor args') [T].
Proof.
  cbn [parser_call parser_ctor m_nargs].
  rewrite build_parser_tuple_app, fetch_one_impl_0_app.
  destruct (has (decltype <$> args) T) eqn:Hhas.
  - rewrite decide_True; [done|]. by apply has_decltype_Exists.
  - rewrite decide_False; [done|]. rewrite <- has_decltype_Exists. congruence.
Qed.

(** X2: a value bound to a tag that no earlier argument binds is what the
    fetch of the tag returns, moved when it was bound as an rvalue and
    referenced otherwise, whatever follows it in the call. *)
Theorem bind_then_fetch args args' T (k : reference_kind) (v : V) :
  has (decltype <$> args) T = false →
  parser_call
    (parser_ctor (args ++ named (named_argument_assign T k v) :: args')) [T]
  = fetch_one match k with
              | rvalue_reference => moved v
              | lvalue_reference => referenced v
              end.
Proof.
  intros Hhas. cbn [parser_call parser_ctor m_nargs].
  rewrite build_parser_tuple_app, fetch_one_impl_0_app.
  rewrite decide_False by (rewrite <- has_decltype_Exists; congruence).
  cbn [build_parser_tuple app]. rewrite fetch_one_impl_0_cons.
  rewrite decide_True by done. by destruct k.
Qed.

Lemma build_parser_tuple_Permutation args args' :
  args ≡ₚ args' → build_parser_tuple args ≡ₚ build_parser_tuple args'.
Proof.
  induction 1 as [|a args args' _ IH|a b args|args1 args2 args3 _ IH1 _ IH2].
  - done.
  - destruct a; simpl; [by f_equiv|done].
  - destruct a, b; simpl; try done. apply perm_swap.
  - by etrans.
Qed.

Lemma omap_tag_of_decltype args :
  omap tag_of (decltype <$> args) = tag_type <$> build_parser_tuple args.
Proof.
  induction args as [|[c|v] args IH]; [done|..]; csimpl; by rewrite IH.
Qed.

Lemma NoDup_fmap_eq {A B : Type} (f : A → B) (l : list A) (a b : A) :
  NoDup (f <$> l) → a ∈ l → b ∈ l → f a = f b → a = b.
Proof.
  induction l as [|a' l IH]; [by intros _ ?%elem_of_nil|].
  rewrite fmap_cons, NoDup_cons.
  intros [Hnotin Hnd] [->|Ha]%elem_of_cons [->|Hb]%elem_of_cons Heq; auto.
  - destruct Hnotin. rewrite Heq. by apply list_elem_of_fmap_2.
  - destruct Hnotin. rewrite <- Heq. by apply list_elem_of_fmap_2.
Qed.

Lemma fetch_one_impl_0_Permutation m m' T :
  m ≡ₚ m' →
  NoDup (tag_type <$> m) →
  fetch_one_impl m 0 T = fetch_one_impl m' 0 T.
Proof.
  intros Hperm Hnd.
  destruct (fetch_one_impl_0 m T) as [Hsome Hnone].
  destruct (fetch_one_impl_0 m' T) as [Hsome' Hnone'].
  destruct (decide (Exists (λ c, tag_type c = T) m)) as [Hex|Hex];
    rewrite Exists_exists in Hex.
  - destruct (Hsome Hex) as (j & c & Hj & HT & _ & ->).
    destruct Hsome' as (j' & c' & Hj' & HT' & _ & ->).
    { destruct Hex as (c0 & Hc0 & HT0). exists c0. by rewrite <- Hperm. }
    f_equal. apply (NoDup_fmap_eq tag_type m); [done| | |congruence].
    + by eapply list_elem_of_lookup_2.
    + rewrite Hperm. by eapply list_elem_of_lookup_2.
  - rewrite (Hnone Hex). symmetry. apply Hnone'.
    intros (c & Hc & HT). apply Hex. exists c. by rewrite Hperm.
Qed.

(** X3: when no tag is bound twice in a call, what a fetch returns does not
    depend on the order of the arguments. *)
Theorem parser_call_Permutation args args' (nargs : list Tag) :
  args ≡ₚ args' →
  NoDup (omap tag_of (decltype <$> args)) →
  parser_call (parser_ctor args) nargs = parser_call (parser_ctor args') nargs.
Proof.
  intros Hperm Hnd. apply parser_call_ext. intros T _.
  cbn [parser_ctor m_nargs]. apply fetch_one_impl_0_Permutation.
  - by apply build_parser_tuple_Permutation.
  - by rewrite <- omap_tag_of_decltype.
Qed.

Lemma build_parser_tuple_named_only args :
  build_parser_tuple
    (filter (λ a, is_tagged_container_any (decltype a) = true) args)
  = build_parser_tuple args.
Proof.
  induction args as [|[c|v] args IH]; [done|..]; rewrite filter_cons.
  - rewrite decide_True by done. cbn [build_parser_tuple]. by rewrite IH.
  - rewrite decide_False by done. done.
Qed.

(** X4: the unnamed arguments of a call play no part in a fetch: leaving
    them out of the call gives the same results. *)
Theorem parser_call_ignores_unnamed args (nargs : list Tag) :
  parser_call (parser_ctor args) nargs
  = parser_call
      (parser_ctor
         (filter (λ a, is_tagged_container_any (decltype a) = true) args))
      nargs.
Proof.
  apply parser_call_ext. intros T _. cbn [parser_ctor m_nargs].
  by rewrite build_parser_tuple_named_only.
Qed.

Lemma filter_eq_self {A : Type} (P : A → Prop) `{!∀ a, Decision (P a)}
    (l : list A) :
  filter P l = l ↔ Forall P l.
Proof.
  induction l as [|a l IH]; [by split|]. rewrite filter_cons, Forall_cons.
  destruct (decide (P a)) as [Ha|Ha].
  - rewrite <- IH. split; [by intros [= ?]|by intros [_ ->]].
  - split; [|by intros [? _]]. intros Heq.
    pose proof (length_filter P l) as Hlen. rewrite Heq in Hlen.
    simpl in Hlen. lia.
Qed.

Lemma has_unnamed_arguments_false (Args : list (cpp_type Tag)) :
  has_unnamed_arguments Args = false
  ↔ Forall (λ A, is_tagged_container_any A = true) Args.
Proof.
  unfold has_unnamed_arguments, uncvref_t. rewrite fold_or_map.
  induction Args as [|A Args IH]; [by split|].
  cbn [existsb]. rewrite orb_false_iff, IH, Forall_cons.
  by destruct (is_tagged_container_any A); split; intros [? ?].
Qed.

(** X5: [has_unnamed_arguments] is false exactly when the constructor drops
    nothing, that is, when the parser holds all the arguments of the call. *)
Theorem has_unnamed_arguments_false_iff_all_stored args :
  has_unnamed_arguments (decltype <$> args) = false
  ↔ named <$> m_nargs (parser_ctor args) = args.
Proof.
  cbn [parser_ctor m_nargs].
  rewrite build_parser_tuple_filter, filter_eq_self.
  by rewrite has_unnamed_arguments_false, Forall_fmap.
Qed.

(** X6: the tuple that the constructor builds has the type [tuple_t] that the
    class computes from [ParseArgs...], and this type lists the tagged
    containers of [ParseArgs...]: the size that [fetch_one_impl] compares
    its index with is the number of containers stored. *)
Theorem m_nargs_has_type_tuple_t args :
  (λ c, decltype (named c)) <$> m_nargs (parser_ctor args)
  = tuple_t (decltype <$> args)
  ∧ tuple_t (decltype <$> args) = bindings (decltype <$> args)
  ∧ length (tuple_t (decltype <$> args)) = length (m_nargs (parser_ctor args)).
Proof.
  cbn [parser_ctor m_nargs].
  assert ((λ c, decltype (named c)) <$> build_parser_tuple args
          = tuple_t (decltype <$> args)) as Htype.
  { induction args as [|[c|v] args IH];
      [done|csimpl; f_equal; exact IH|csimpl; exact IH]. }
  split; [done|]. split.
  - clear Htype. unfold bindings.
    induction args as [|[c|v] args IH]; [done|..];
      rewrite fmap_cons, filter_cons; csimpl; by rewrite IH.
  - by rewrite <- Htype, length_fmap.
Qed.
End parser_composition.

(** ** Further properties of the predicates: order, concatenation,
    validation *)

Lemma existsb_Permutation {A : Type} (f : A → bool) (l l' : list A) :
  l ≡ₚ l' → existsb f l = existsb f l'.
Proof.
  induction 1 as [|a l l' _ IH|a b l|l1 l2 l3 _ IH1 _ IH2]; simpl.
  - done.
  - by rewrite IH.
  - by destruct (f a), (f b).
  - by etrans.
Qed.

Lemma forallb_Permutation {A : Type} (f : A → bool) (l l' : list A) :
  l ≡ₚ l' → forallb f l = forallb f l'.
Proof.
  induction 1 as [|a l l' _ IH|a b l|l1 l2 l3 _ IH1 _ IH2]; simpl.
  - done.
  - by rewrite IH.
  - by destruct (f a), (f b).
  - by etrans.
Qed.

(** A [std::size_t] count does not depend on the order of the pack. *)
Lemma fold_plus_0_Permutation {A : Type} (f : A → bool) (l l' : list A) :
  l ≡ₚ l' →
  fold_plus 0 ((λ a, size_t_of_bool (f a)) <$> l)
  = fold_plus 0 ((λ a, size_t_of_bool (f a)) <$> l').
Proof.
  intros Hperm. rewrite !fold_plus_count by done. by rewrite Hperm.
Qed.

Section predicate_composition.
Context {Tag : Type} `{!EqDecision Tag}.
Implicit Types (Args L : list (cpp_type Tag)) (T : Tag) (nargs : list Tag).

Lemma has_Permutation Args Args' T : Args ≡ₚ Args' → has Args T = has Args' T.
Proof.
  intros Hperm. unfold has. rewrite !fold_or_map.
  by apply existsb_Permutation.
Qed.

(** X7: the predicates do not depend on the order of the arguments of the
    call. *)
Theorem predicates_Permutation_Args Args Args' nargs :
  Args ≡ₚ Args' →
  has_all Args nargs = has_all Args' nargs
  ∧ has_any Args nargs = has_any Args' nargs
  ∧ has_unnamed_arguments Args = has_unnamed_arguments Args'
  ∧ has_other_than Args nargs = has_other_than Args' nargs.
Proof.
  intros Hperm.
  assert (∀ T, has Args T = has Args' T) as Hhas
    by (intros T; by apply has_Permutation).
  repeat split.
  - unfold has_all. f_equal. apply list_fmap_ext. intros _ T _. apply Hhas.
  - unfold has_any. f_equal. apply list_fmap_ext. intros _ T _. apply Hhas.
  - unfold has_unnamed_arguments. rewrite !fold_or_map.
    by apply existsb_Permutation.
  - unfold has_other_than. f_equal.
    + f_equal. apply list_fmap_ext. intros _ T _. by rewrite Hhas.
    + by apply (fold_plus_0_Permutation (λ A, is_tagged_container_any A)).
Qed.

(** X8: the predicates that take several tags do not depend on the order in
    which the tags are given. *)
Theorem predicates_Permutation_nargs Args nargs nargs' :
  nargs ≡ₚ nargs' →
  has_all Args nargs = has_all Args nargs'
  ∧ has_any Args nargs = has_any Args nargs'
  ∧ has_other_than Args nargs = has_other_than Args nargs'.
Proof.
  intros Hperm. repeat split.
  - unfold has_all. rewrite !fold_and_map. by apply forallb_Permutation.
  - unfold has_any. rewrite !fold_or_map. by apply existsb_Permutation.
  - unfold has_other_than. f_equal.
    by apply (fold_plus_0_Permutation (has Args)).
Qed.

(** X9: over a call made of two argument lists in a row, [has] and
    [has_unnamed_arguments] are the disjunctions of their values on the two
    lists; over two tag lists in a row, [has_all] is the conjunction and
    [has_any] the disjunction of their values on the two lists. *)
Theorem predicates_app Args Args' nargs nargs' T :
  has (Args ++ Args') T = has Args T || has Args' T
  ∧ has_unnamed_arguments (Args ++ Args')
    = has_unnamed_arguments Args || has_unnamed_arguments Args'
  ∧ has_all Args (nargs ++ nargs') = has_all Args nargs && has_all Args nargs'
  ∧ has_any Args (nargs ++ nargs') = has_any Args nargs || has_any Args nargs'.
Proof.
  unfold has, has_unnamed_arguments, has_all, has_any.
  rewrite !fold_or_map, !fold_and_map.
  by rewrite !existsb_app, forallb_app.
Qed.

(** X10: [has_all] holds exactly when every given tag has a tagged container
    in the pack, [has_any] exactly when some given tag has one. *)
Theorem has_all_has_any_iff Args nargs :
  (has_all Args nargs = true
   ↔ ∀ T, T ∈ nargs → ∃ k, tagged_container_t T k ∈ Args)
  ∧ (has_any Args nargs = true
     ↔ ∃ T, T ∈ nargs ∧ ∃ k, tagged_container_t T k ∈ Args).
Proof.
  unfold has_all, has_any. rewrite fold_and_map, fold_or_map. split.
  - rewrite forallb_forall. setoid_rewrite <- list_elem_of_In.
    by setoid_rewrite has_true.
  - rewrite existsb_elem_of. by setoid_rewrite has_true.
Qed.

Lemma length_omap_tag_of L :
  length (omap tag_of L) = length (bindings L).
Proof.
  unfold bindings. induction L as [|[tag k|] L IH]; [done|..];
    rewrite filter_cons; csimpl; by rewrite IH.
Qed.

Lemma elem_of_omap_tag_of L T :
  T ∈ omap tag_of L ↔ has L T = true.
Proof.
  rewrite has_true, list_elem_of_omap. split.
  - intros ([tag k|] & HA & [= ->]). eauto.
  - intros [k Hk]. by exists (tagged_container_t T k).
Qed.

(** X11: with tags given once each, [has_other_than] is false exactly when
    every tagged container of the pack has one of the given tags and no two
    of them have the same tag: the check accepts a call only if all its named
    arguments are known and none is repeated.  (Packs are below the range of
    [std::size_t], as [sizeof...] requires.) *)
Theorem has_other_than_false_iff Args nargs :
  (N.of_nat (length Args) < size_t_modulus)%N →
  (N.of_nat (length nargs) < size_t_modulus)%N →
  NoDup nargs →
  has_other_than Args nargs = false
  ↔ NoDup (omap tag_of Args) ∧ ∀ T, T ∈ omap tag_of Args → T ∈ nargs.
Proof.
  intros HArgs Hnargs Hnd.
  rewrite has_other_than_counts, bool_decide_eq_false by done.
  rewrite <- length_omap_tag_of.
  assert (NoDup (tags_present Args nargs)) as Hnd' by (by apply NoDup_filter).
  assert (∀ T, T ∈ tags_present Args nargs → T ∈ omap tag_of Args) as Hsub.
  { intros T [HT _]%list_elem_of_filter. by apply elem_of_omap_tag_of. }
  split.
  - intros Hlen.
    assert (tags_present Args nargs ≡ₚ omap tag_of Args) as Hperm.
    { apply submseteq_length_Permutation; [by apply NoDup_submseteq|lia]. }
    split; [by rewrite <- Hperm|].
    intros T HT. rewrite <- Hperm in HT.
    by apply list_elem_of_filter in HT as [_ HT].
  - intros [Hnd'' Hall].
    assert (omap tag_of Args ⊆+ tags_present Args nargs) as Hle.
    { apply NoDup_submseteq; [done|]. intros T HT.
      apply list_elem_of_filter. split; [|by apply Hall].
      by apply elem_of_omap_tag_of. }
    apply submseteq_length in Hle. lia.
Qed.

(** X12: [has_other_than] never holds for a pack without tagged
    containers, whatever the tags and however many. *)
Theorem has_other_than_true_binding Args nargs :
  has_other_than Args nargs = true →
  ∃ tag k, tagged_container_t tag k ∈ Args.
Proof.
  unfold has_other_than, uncvref_t. intros Hlt%N.ltb_lt.
  rewrite (fold_plus_count is_tagged_container_any) in Hlt by done.
  destruct (filter (λ A, is_tagged_container_any A = true) Args)
    as [|A l] eqn:Hf.
  - simpl in Hlt. rewrite N.Div0.mod_0_l in Hlt. lia.
  - assert (A ∈ filter (λ A, is_tagged_container_any A = true) Args)
      as [(tag & k & ->)%is_tagged_container_any_true HA]%list_elem_of_filter
      by (rewrite Hf; left).
    eauto.
Qed.
End predicate_composition.

(** ** The further properties at the scenarios *)

Lemma call_1_reversed_Permutation : call_1 ≡ₚ call_1_reversed.
Proof.
  change call_1_reversed with (reverse call_1).
  symmetry. apply reverse_Permutation.
Defined.

Lemma call_1_tags_NoDup : NoDup (omap tag_of (decltype <$> call_1)).
Proof.
  change (NoDup [x; y]). apply NoDup_cons. split; [|apply NoDup_singleton].
  intros [=]%list_elem_of_singleton.
Defined.

Lemma x_y_NoDup : NoDup [x; y].
Proof. exact call_1_tags_NoDup. Defined.

Lemma bind_then_fetch_witness :
  has (decltype <$> [unnamed (Tag:=string) (int_ 42)]) x = false
  ∧ parser_call
      (parser_ctor
         ([unnamed (int_ 42)]
          ++ named (named_argument_assign x rvalue_reference (int_ 1))
          :: call_2)) [x]
    = fetch_one (moved (int_ 1)).
Proof.
  split; [reflexivity|].
  apply (bind_then_fetch [unnamed (int_ 42)] call_2 x rvalue_reference
           (int_ 1)).
  reflexivity.
Defined.

Lemma parser_call_Permutation_witness :
  call_1 ≡ₚ call_1_reversed
  ∧ NoDup (omap tag_of (decltype <$> call_1))
  ∧ parser_call (parser_ctor call_1) [x; y; z]
    = parser_call (parser_ctor call_1_reversed) [x; y; z].
Proof.
  split; [exact call_1_reversed_Permutation|].
  split; [exact call_1_tags_NoDup|].
  exact (parser_call_Permutation call_1 call_1_reversed [x; y; z]
           call_1_reversed_Permutation call_1_tags_NoDup).
Defined.

(** With a tag bound twice the order of the arguments matters: [x = 1, x = 2]
    gives 1 for [x], [x = 2, x = 1] gives 2. *)
Example parser_call_repeated_tag_order :
  parser_call (parser_ctor call_2) [x] = fetch_one (moved (int_ 1))
  ∧ parser_call (parser_ctor (reverse call_2)) [x] = fetch_one (moved (int_ 2)).
Proof. by vm_compute. Qed.

Lemma predicates_Permutation_Args_witness :
  decltype <$> call_1 ≡ₚ decltype <$> call_1_reversed
  ∧ has_all (decltype <$> call_1) [x; z]
    = has_all (decltype <$> call_1_reversed) [x; z]
  ∧ has_any (decltype <$> call_1) [x; z]
    = has_any (decltype <$> call_1_reversed) [x; z]
  ∧ has_unnamed_arguments (decltype <$> call_1)
    = has_unnamed_arguments (decltype <$> call_1_reversed)
  ∧ has_other_than (decltype <$> call_1) [x; z]
    = has_other_than (decltype <$> call_1_reversed) [x; z].
Proof.
  assert (decltype <$> call_1 ≡ₚ decltype <$> call_1_reversed) as Hperm
    by (apply fmap_Permutation, call_1_reversed_Permutation).
  split; [exact Hperm|].
  exact (predicates_Permutation_Args (decltype <$> call_1)
           (decltype <$> call_1_reversed) [x; z] Hperm).
Defined.

Lemma predicates_Permutation_nargs_witness :
  [x; z] ≡ₚ [z; x]
  ∧ has_all (decltype <$> call_1) [x; z] = has_all (decltype <$> call_1) [z; x]
  ∧ has_any (decltype <$> call_1) [x; z] = has_any (decltype <$> call_1) [z; x]
  ∧ has_other_than (decltype <$> call_1) [x; z]
    = has_other_than (decltype <$> call_1) [z; x].
Proof.
  split; [apply perm_swap|].
  exact (predicates_Permutation_nargs (decltype <$> call_1) [x; z] [z; x]
           (perm_swap z x [])).
Defined.

Lemma has_other_than_false_iff_witness :
  (N.of_nat (length (decltype <$> call_1)) < size_t_modulus)%N
  ∧ (N.of_nat (length [x; y]) < size_t_modulus)%N
  ∧ NoDup [x; y]
  ∧ (has_other_than (decltype <$> call_1) [x; y] = false
     ↔ NoDup (omap tag_of (decltype <$> call_1))
       ∧ ∀ T, T ∈ omap tag_of (decltype <$> call_1) → T ∈ [x; y]).
Proof.
  split; [reflexivity|]. split; [reflexivity|]. split; [exact x_y_NoDup|].
  exact (has_other_than_false_iff (decltype <$> call_1) [x; y]
           eq_refl eq_refl x_y_NoDup).
Defined.

Lemma has_other_than_true_binding_witness :
  has_other_than (decltype <$> call_1) [x] = true
  ∧ ∃ tag k, tagged_container_t tag k ∈ decltype <$> call_1.
Proof.
  split; [reflexivity|].
  exact (has_other_than_true_binding (decltype <$> call_1) [x] eq_refl).
Defined.
